(** * A shallow embedding of [temp_replace.py]

    The script reads one file, locates two marker strings with
    [str.index], splices a fixed block between them and writes the
    file back.  Python text is modelled as a list of characters, the
    two builtin operations the script relies on ([str.index] and
    slicing) as list functions, and the script itself in a small
    state-and-exception monad over a store of files. *)

From Stdlib Require Import Ascii String NArith Lia.
From stdpp Require Import base list strings gmap.

(** ** Python text: [str.index] and slices *)

Section pystr.
Context {A : Type} `{!EqDecision A}.
Implicit Types text sub : list A.

(** [text.startswith(sub)] *)
Fixpoint startswith text sub : bool :=
  match sub, text with
  | [], _ => true
  | _ :: _, [] => false
  | p :: sub', c :: text' => if decide (p = c) then startswith text' sub' else false
  end.

(** The left-to-right scan behind [str.find]: [pos] is the offset of
    [text] inside the string the scan started on. *)
Fixpoint find_at text sub (pos : nat) : option nat :=
  match text with
  | [] => if startswith [] sub then Some pos else None
  | _ :: rest => if startswith text sub then Some pos else find_at rest sub (S pos)
  end.

(** [text.find(sub)], with [None] for Python's [-1]. *)
Definition find text sub : option nat := find_at text sub 0.

(** [text.find(sub, i)] for a non-negative [i]: the scan is over
    [text[i:]], and an offset beyond the end finds nothing. *)
Definition find_from text sub (i : nat) : option nat :=
  if decide (i ≤ length text) then (λ k, i + k) <$> find (drop i text) sub else None.

(** [text[k:k+len(sub)] == sub] at an offset inside [text]. *)
Definition occurs_at text sub (k : nat) : Prop :=
  k ≤ length text ∧ take (length sub) (drop k text) = sub.

(** [k] is the lowest offset at which [sub] occurs. *)
Definition first_occurrence text sub (k : nat) : Prop :=
  occurs_at text sub k ∧ ∀ k', occurs_at text sub k' → k ≤ k'.

(** [k] is the lowest offset not below [i] at which [sub] occurs. *)
Definition first_occurrence_from text sub (i k : nat) : Prop :=
  i ≤ k ∧ occurs_at text sub k ∧ ∀ k', i ≤ k' → occurs_at text sub k' → k ≤ k'.
End pystr.

(** ** Exceptions and results *)

(** The two exceptions the script can raise: [str.index] raises
    [ValueError] when the substring is not found, [Path.read_text]
    raises [FileNotFoundError] when there is no file at the path. *)
Inductive exn : Type := ValueError | FileNotFoundError.

Inductive result (T : Type) : Type :=
  | Ok (v : T)
  | Raise (e : exn).
Arguments Ok {T} v.
Arguments Raise {T} e.

Global Instance result_ret : MRet result := λ T v, Ok v.
Global Instance result_bind : MBind result := λ T U f m,
  match m with
  | Ok v => f v
  | Raise e => Raise e
  end.

(** ** Text *)

(** A Python [str] is a sequence of Unicode code points. *)
Abbreviation str := (list N).

(** A string literal of the script, as text. *)
Definition lit (s : string) : str := N_of_ascii <$> list_ascii_of_string s.

(** [text.index(sub)]: like [find], but raises when nothing is found. *)
Definition index (text sub : str) : result nat :=
  match find text sub with
  | Some i => Ok i
  | None => Raise ValueError
  end.

(** [text.index(sub, i)], the lookup that starts at offset [i]. The
    script never calls it; the specification's step 2 is worded with
    it. *)
Definition index_from (text sub : str) (i : nat) : result nat :=
  match find_from text sub i with
  | Some j => Ok j
  | None => Raise ValueError
  end.

(** ** The transformation (lines 5 to 8)

    The script's three literals are parameters here; [script] below
    passes the literals. *)

(** Lines 5 and 6: both lookups are [text.index(marker)], each over the
    whole of [text]. *)
Definition locate (text start_marker end_marker : str) : result (nat * nat) :=
  start ← index text start_marker;
  end_ ← index text end_marker;
  mret (start, end_).

(** Line 8: [text[:start] + block + text[end:]]. *)
Definition splice (text block : str) (start end_ : nat) : str :=
  take start text ++ block ++ drop end_ text.

Definition replace_span (text start_marker end_marker block : str) : result str :=
  '(start, end_) ← locate text start_marker end_marker;
  mret (splice text block start end_).

(** The operation as section 4.1 of the specification words it: the end
    marker is looked up from offset [i] on. *)
Definition spec_replace_span (document start_marker end_marker replacement : str)
    : result str :=
  i ← index document start_marker;
  j ← index_from document end_marker i;
  mret (splice document replacement i j).

(** ** The script (lines 3 to 9) *)

(** What the script can observe and change: the files, as decoded text
    by path, and the sequence of writes performed so far. Encoding and
    newline translation happen below this level: a file is the text
    that [read_text] returns for it. *)
Record world : Type := World {
  files : gmap string str;
  writes : list (string * str)
}.

Definition io (T : Type) : Type := world → result T * world.

Global Instance io_ret : MRet io := λ T v w, (Ok v, w).
Global Instance io_bind : MBind io := λ T U f m w,
  match m w with
  | (Ok v, w') => f v w'
  | (Raise e, w') => (Raise e, w')
  end.

(** A pure computation inside the script: its exception, if any, ends
    the run. *)
Definition lift {T : Type} (r : result T) : io T := λ w, (r, w).

(** [path.read_text(encoding='utf-8')] *)
Definition read_text (p : string) : io str := λ w,
  match files w !! p with
  | Some text => (Ok text, w)
  | None => (Raise FileNotFoundError, w)
  end.

(** [path.write_text(text, encoding='utf-8')] *)
Definition write_text (p : string) (text : str) : io () := λ w,
  (Ok (), World (<[p:=text]> (files w)) (writes w ++ [(p, text)])).

(** The script with its path and literals as parameters. *)
Definition replace_in_file (p : string) (start_marker end_marker block : str) : io () :=
  text ← read_text p;
  start ← lift (index text start_marker);
  end_ ← lift (index text end_marker);
  let text := take start text ++ block ++ drop end_ text in
  write_text p text.

Definition path : string :=
  "apps/frontend/src/components/draft/QuickPickRecommendations.tsx".

(** The line feed that ends the literal of line 7. *)
Definition block : str := lit "const RoleColumns = () => null;" ++ [10%N].

Definition script : io () :=
  replace_in_file path
    (lit "const RoleRecommendations") (lit "const RecommendationDetailDialog") block.

(** Lines 4 to 8 on their own: the read, the two lookups and the splice,
    before anything is written. *)
Definition transform (p : string) (start_marker end_marker block : str) : io str :=
  text ← read_text p;
  start ← lift (index text start_marker);
  end_ ← lift (index text end_marker);
  mret (take start text ++ block ++ drop end_ text).

(** ** Facts about the scan *)

Section pystr_facts.
Context {A : Type} `{!EqDecision A}.
Implicit Types text sub : list A.

Lemma startswith_take text sub :
  startswith text sub = true ↔ take (length sub) text = sub.
Proof.
  revert text. induction sub as [|p sub IH]; intros [|c text]; simpl; try done.
  case_decide as Hpc.
  - subst. rewrite IH. split; [congruence | by intros [= ->]].
  - split; [done | by intros [= -> _]].
Qed.

Lemma occurs_at_0 text sub : occurs_at text sub 0 ↔ startswith text sub = true.
Proof.
  unfold occurs_at. rewrite startswith_take, drop_0. split; [by intros [_ ?] | ].
  split; [lia | done].
Qed.

Lemma occurs_at_S c text sub k : occurs_at (c :: text) sub (S k) ↔ occurs_at text sub k.
Proof. unfold occurs_at. simpl. split; intros [? ?]; (split; [lia | done]). Qed.

Lemma occurs_at_nil sub k : occurs_at [] sub k → k = 0.
Proof. intros [Hk _]. simpl in Hk. lia. Qed.

Lemma find_at_Some text sub pos r :
  find_at text sub pos = Some r →
  ∃ k, r = pos + k ∧ first_occurrence text sub k.
Proof.
  revert pos. induction text as [|c text IH]; intros pos; cbn [find_at].
  - destruct (startswith [] sub) eqn:Hs; [|done]. intros [= <-].
    exists 0. split; [lia|]. split; [by apply occurs_at_0 | intros; lia].
  - destruct (startswith (c :: text) sub) eqn:Hs.
    + intros [= <-]. exists 0. split; [lia|]. split; [by apply occurs_at_0 | intros; lia].
    + intros (k & -> & Hocc & Hmin)%IH. exists (S k). split; [lia|]. split.
      * by apply occurs_at_S.
      * intros [|k'] Hk'.
        -- apply occurs_at_0 in Hk'. congruence.
        -- apply occurs_at_S, Hmin in Hk'. lia.
Qed.

Lemma find_at_None text sub pos :
  find_at text sub pos = None → ∀ k, ¬ occurs_at text sub k.
Proof.
  revert pos. induction text as [|c text IH]; intros pos; cbn [find_at].
  - destruct (startswith [] sub) eqn:Hs; [done|]. intros _ k Hk.
    pose proof (occurs_at_nil _ _ Hk) as ->. apply occurs_at_0 in Hk. congruence.
  - destruct (startswith (c :: text) sub) eqn:Hs; [done|]. intros Hn [|k] Hk.
    + apply occurs_at_0 in Hk. congruence.
    + apply occurs_at_S in Hk. by eapply IH.
Qed.

Lemma first_occurrence_unique text sub k1 k2 :
  first_occurrence text sub k1 → first_occurrence text sub k2 → k1 = k2.
Proof. intros [H1 M1] [H2 M2]. apply M1 in H2. apply M2 in H1. lia. Qed.

(** [find] returns exactly the lowest offset of an occurrence. *)
Lemma find_Some text sub k : find text sub = Some k ↔ first_occurrence text sub k.
Proof.
  unfold find. split.
  - by intros (k' & -> & Hk')%find_at_Some.
  - intros Hk. destruct (find_at text sub 0) as [r|] eqn:Hf.
    + apply find_at_Some in Hf as (k' & -> & Hk').
      f_equal. simpl. eapply first_occurrence_unique; eauto.
    + destruct Hk as [Hk _]. by apply find_at_None with (k := k) in Hf.
Qed.

(** [find] fails exactly when [sub] occurs nowhere. *)
Lemma find_None text sub : find text sub = None ↔ ∀ k, ¬ occurs_at text sub k.
Proof.
  unfold find. split; [apply find_at_None|].
  intros Hno. destruct (find_at text sub 0) as [r|] eqn:Hf; [|done].
  apply find_at_Some in Hf as (k & _ & Hk & _). by apply Hno in Hk.
Qed.

Lemma occurs_at_drop text sub i k :
  i ≤ length text → occurs_at (drop i text) sub k ↔ occurs_at text sub (i + k).
Proof.
  intros Hi. unfold occurs_at. rewrite length_drop, drop_drop.
  split; intros [? ?]; (split; [lia | done]).
Qed.

(** [find_from] returns exactly the lowest offset, not below [i], of
    an occurrence. *)
Lemma find_from_Some text sub i k :
  find_from text sub i = Some k ↔ i ≤ length text ∧ first_occurrence_from text sub i k.
Proof.
  unfold find_from. case_decide as Hi; [|split; [done | intros [? _]; lia]].
  destruct (find (drop i text) sub) as [r|] eqn:Hf; simpl.
  - apply find_Some in Hf as [Hocc Hmin]. split.
    + intros [= <-]. split; [done|]. split; [lia|]. split.
      * by apply occurs_at_drop.
      * intros k' Hk' Hocc'. replace k' with (i + (k' - i)) in Hocc' by lia.
        apply occurs_at_drop, Hmin in Hocc'; lia.
    + intros (_ & Hik & Hocc' & Hmin'). f_equal.
      apply occurs_at_drop in Hocc; [|done]. apply Hmin' in Hocc; [|lia].
      replace k with (i + (k - i)) in Hocc' by lia.
      apply occurs_at_drop, Hmin in Hocc'; lia.
  - split; [done|]. intros (_ & Hik & Hocc & _).
    rewrite find_None in Hf. replace k with (i + (k - i)) in Hocc by lia.
    apply occurs_at_drop in Hocc; [|done]. by apply Hf in Hocc.
Qed.

Lemma find_from_None text sub i :
  find_from text sub i = None ↔ ∀ k, i ≤ k → ¬ occurs_at text sub k.
Proof.
  unfold find_from. case_decide as Hi.
  - destruct (find (drop i text) sub) as [r|] eqn:Hf; simpl.
    + split; [done|]. intros Hno. apply find_Some in Hf as [Hocc _].
      apply occurs_at_drop in Hocc; [|done]. apply Hno in Hocc; [done | lia].
    + split; [|done]. intros _ k Hik Hocc. rewrite find_None in Hf.
      replace k with (i + (k - i)) in Hocc by lia.
      apply occurs_at_drop in Hocc; [|done]. by apply Hf in Hocc.
  - split; [|done]. intros _ k Hik [Hk _]. lia.
Qed.

(** Scanning from the very beginning is the plain search. *)
Lemma find_from_0 text sub : find_from text sub 0 = find text sub.
Proof.
  unfold find_from. rewrite decide_True by lia. rewrite drop_0.
  by destruct (find text sub).
Qed.
End pystr_facts.

(** ** What the lookups and the splice compute *)

Lemma index_Ok text sub i : index text sub = Ok i ↔ find text sub = Some i.
Proof. unfold index. destruct (find text sub); split; congruence. Qed.

Lemma index_Raise text sub e :
  index text sub = Raise e ↔ find text sub = None ∧ e = ValueError.
Proof.
  unfold index. destruct (find text sub); split; try congruence.
  - by intros [? _].
  - by intros [= <-].
  - by intros [_ ->].
Qed.

Lemma index_from_Ok text sub i j : index_from text sub i = Ok j ↔ find_from text sub i = Some j.
Proof. unfold index_from. destruct (find_from text sub i); split; congruence. Qed.

Lemma locate_Ok text s e i j :
  locate text s e = Ok (i, j) ↔ find text s = Some i ∧ find text e = Some j.
Proof.
  unfold locate, index. destruct (find text s), (find text e); simpl; split;
    first [by intros [= -> ->] | by intros [[= ->] [= ->]] | done | by intros [? ?]].
Qed.

Lemma locate_Raise text s e err :
  locate text s e = Raise err ↔
  (find text s = None ∨ find text e = None) ∧ err = ValueError.
Proof.
  unfold locate, index. destruct (find text s), (find text e); simpl; split;
    first [done | by intros [[?|?] _] | by intros [= <-]; eauto | by intros [_ ->]].
Qed.

Lemma replace_span_locate text s e b :
  replace_span text s e b =
  match locate text s e with
  | Ok (i, j) => Ok (take i text ++ b ++ drop j text)
  | Raise err => Raise err
  end.
Proof. unfold replace_span. by destruct (locate text s e) as [[i j]|]. Qed.

Lemma replace_span_Ok text s e b i j :
  find text s = Some i → find text e = Some j →
  replace_span text s e b = Ok (take i text ++ b ++ drop j text).
Proof.
  intros Hi Hj. rewrite replace_span_locate.
  by rewrite (proj2 (locate_Ok text s e i j) (conj Hi Hj)).
Qed.

Lemma replace_span_Raise text s e b err :
  replace_span text s e b = Raise err ↔
  (find text s = None ∨ find text e = None) ∧ err = ValueError.
Proof.
  rewrite replace_span_locate, <- locate_Raise.
  destruct (locate text s e) as [[i j]|]; split; congruence.
Qed.

Lemma find_le_length text (sub : str) i : find text sub = Some i → i ≤ length text.
Proof. by intros [[? _] _]%find_Some. Qed.

(** When the plain lookup lands at or after [i], the lookup from [i]
    lands on the same offset, and conversely. *)
Lemma find_from_agrees (text sub : str) i j :
  i ≤ length text → find text sub = Some j →
  find_from text sub i = Some j ↔ i ≤ j.
Proof.
  intros Hi [Hocc Hmin]%find_Some. rewrite find_from_Some. split.
  - by intros (_ & ? & _).
  - intros Hij. split; [done|]. split; [done|]. split; [done|]. intros k' _. apply Hmin.
Qed.

(** Whatever the lookup from [i] finds, the plain lookup finds something
    no later. *)
Lemma find_from_find (text sub : str) i j :
  find_from text sub i = Some j → ∃ j0, find text sub = Some j0 ∧ j0 ≤ j.
Proof.
  intros (_ & _ & Hocc & _)%find_from_Some.
  destruct (find text sub) as [j0|] eqn:Hf.
  - exists j0. split; [done|]. apply find_Some in Hf as [_ Hmin]. by apply Hmin.
  - rewrite find_None in Hf. by apply Hf in Hocc.
Qed.

(** The examples of the specification. *)
Example example_1 :
  replace_span (lit "ABCstartXYZendDEF") (lit "start") (lit "end") (lit "R")
  = Ok (lit "ABCRendDEF").
Proof. reflexivity. Qed.

Example example_2 :
  replace_span (lit "headermarkerAmarkerBtail") (lit "markerA") (lit "markerB") []
  = Ok (lit "headermarkerBtail").
Proof. reflexivity. Qed.

Example example_3 e r : replace_span (lit "noMarkersHere") (lit "X") e r = Raise ValueError.
Proof. reflexivity. Qed.

(** ** The splice bounds *)

(** C1, as the code has it: the splice end [j] is the first occurrence of
    the end marker in the whole document, found from offset 0 and
    independently of [i]; it is the first occurrence found from offset
    [i] exactly when it does not lie before [i]. *)
Theorem end_index_scans_from_zero (document start_marker end_marker : str) i j :
  locate document start_marker end_marker = Ok (i, j) →
  first_occurrence document start_marker i ∧
  first_occurrence document end_marker j ∧
  (index_from document end_marker i = Ok j ↔ i ≤ j).
Proof.
  intros [Hi Hj]%locate_Ok. split; [by apply find_Some|]. split; [by apply find_Some|].
  rewrite index_from_Ok. apply find_from_agrees; [|done]. by eapply find_le_length.
Qed.

Lemma end_index_scans_from_zero_witness :
  locate (lit "ABCstartXYZendDEF") (lit "start") (lit "end") = Ok (3, 11) ∧
  first_occurrence (lit "ABCstartXYZendDEF") (lit "start") 3 ∧
  first_occurrence (lit "ABCstartXYZendDEF") (lit "end") 11 ∧
  (index_from (lit "ABCstartXYZendDEF") (lit "end") 3 = Ok 11 ↔ 3 ≤ 11).
Proof.
  split; [reflexivity|].
  apply (end_index_scans_from_zero (lit "ABCstartXYZendDEF") (lit "start") (lit "end") 3 11).
  reflexivity.
Defined.

(** In "endXstartYend" the start marker is first found at 4 and the end
    marker, scanned for from offset 4, at 10; the script's splice end is 0. *)
Lemma end_index_not_from_start_index :
  locate (lit "endXstartYend") (lit "start") (lit "end") = Ok (4, 0) ∧
  index_from (lit "endXstartYend") (lit "end") 4 = Ok 10 ∧
  ¬ first_occurrence_from (lit "endXstartYend") (lit "end") 4 0.
Proof.
  split; [reflexivity|]. split; [reflexivity|]. intros [Hle _]. lia.
Qed.

(** ** The splice *)

(** C2, as the code has it: with [i] the first offset of the start marker
    and [j] the first offset of the end marker in the whole document, the
    operation returns [document[0:i] + replacement + document[j:]]; the
    text before the start marker and the text from the end marker on
    surround the replacement unchanged. *)
Theorem replace_span_splices (document start_marker end_marker replacement : str) i j :
  index document start_marker = Ok i →
  index document end_marker = Ok j →
  ∃ out,
    replace_span document start_marker end_marker replacement = Ok out ∧
    out = take i document ++ replacement ++ drop j document ∧
    take i out = take i document ∧
    drop (i + length replacement) out = drop j document.
Proof.
  intros Hi%index_Ok Hj%index_Ok. eexists. split; [by apply replace_span_Ok|].
  split; [done|]. pose proof (find_le_length _ _ _ Hi) as Hlen.
  assert (length (take i document) = i) as Hti by (rewrite length_take; lia).
  split.
  - rewrite take_app_le by lia. rewrite take_ge by lia. done.
  - rewrite app_assoc. rewrite drop_app_length'; [done|]. rewrite length_app. lia.
Qed.

Lemma replace_span_splices_witness :
  index (lit "ABCstartXYZendDEF") (lit "start") = Ok 3 ∧
  index (lit "ABCstartXYZendDEF") (lit "end") = Ok 11 ∧
  ∃ out,
    replace_span (lit "ABCstartXYZendDEF") (lit "start") (lit "end") (lit "R") = Ok out ∧
    out = take 3 (lit "ABCstartXYZendDEF") ++ lit "R" ++ drop 11 (lit "ABCstartXYZendDEF") ∧
    take 3 out = take 3 (lit "ABCstartXYZendDEF") ∧
    drop (3 + length (lit "R")) out = drop 11 (lit "ABCstartXYZendDEF").
Proof.
  split; [reflexivity|]. split; [reflexivity|].
  apply (replace_span_splices (lit "ABCstartXYZendDEF") (lit "start") (lit "end") (lit "R") 3 11);
    reflexivity.
Defined.

(** In "endXstartYend" the precondition of section 4.1 holds with [i = 4]
    and [j = 10], and the operation does not return
    [document[0:4] + "R" + document[10:]] = "endXRend". *)
Lemma replace_span_not_spec_splice :
  index (lit "endXstartYend") (lit "start") = Ok 4 ∧
  index_from (lit "endXstartYend") (lit "end") 4 = Ok 10 ∧
  take 4 (lit "endXstartYend") ++ lit "R" ++ drop 10 (lit "endXstartYend") = lit "endXRend" ∧
  replace_span (lit "endXstartYend") (lit "start") (lit "end") (lit "R")
    = Ok (lit "endXRendXstartYend") ∧
  replace_span (lit "endXstartYend") (lit "start") (lit "end") (lit "R")
    ≠ Ok (take 4 (lit "endXstartYend") ++ lit "R" ++ drop 10 (lit "endXstartYend")).
Proof. repeat split; try reflexivity. vm_compute. discriminate. Qed.

(** ** Failure *)

(** C3, as the code has it: the operation raises exactly when the start
    marker or the end marker occurs nowhere in the document, the
    exception is then the [ValueError] of the lookup, and whenever both
    lookups succeed it returns the complete splice. *)
Theorem replace_span_fails_iff_marker_absent (document start_marker end_marker replacement : str) :
  (replace_span document start_marker end_marker replacement = Raise ValueError ↔
     (∀ k, ¬ occurs_at document start_marker k) ∨
     (∀ k, ¬ occurs_at document end_marker k)) ∧
  (∀ err, replace_span document start_marker end_marker replacement = Raise err →
     err = ValueError) ∧
  (∀ i j, index document start_marker = Ok i → index document end_marker = Ok j →
     replace_span document start_marker end_marker replacement
     = Ok (take i document ++ replacement ++ drop j document)).
Proof.
  split; [|split].
  - rewrite replace_span_Raise, <- !find_None. split; [by intros [? _] | by intros ?].
  - by intros err [_ ->]%replace_span_Raise.
  - intros i j Hi%index_Ok Hj%index_Ok. by apply replace_span_Ok.
Qed.

(** In "endXstart" the end marker is absent from the range that starts at
    the start marker's offset 4, and the operation succeeds. *)
Lemma replace_span_succeeds_end_absent_in_range :
  index (lit "endXstart") (lit "start") = Ok 4 ∧
  index_from (lit "endXstart") (lit "end") 4 = Raise ValueError ∧
  spec_replace_span (lit "endXstart") (lit "start") (lit "end") (lit "R") = Raise ValueError ∧
  replace_span (lit "endXstart") (lit "start") (lit "end") (lit "R")
    = Ok (lit "endXRendXstart").
Proof. repeat split. Qed.

(** ** Length *)

(** C5, as the code has it: with [i] the first offset of the start marker
    and [j] the first offset of the end marker in the whole document, the
    returned string has length [i + len(replacement) + (len(document) - j)]. *)
Theorem replace_span_length (document start_marker end_marker replacement : str) i j :
  index document start_marker = Ok i →
  index document end_marker = Ok j →
  ∃ out,
    replace_span document start_marker end_marker replacement = Ok out ∧
    length out = i + length replacement + (length document - j).
Proof.
  intros Hi%index_Ok Hj%index_Ok. eexists. split; [by apply replace_span_Ok|].
  pose proof (find_le_length _ _ _ Hi). rewrite !length_app, length_take, length_drop. lia.
Qed.

Lemma replace_span_length_witness :
  index (lit "ABCstartXYZendDEF") (lit "start") = Ok 3 ∧
  index (lit "ABCstartXYZendDEF") (lit "end") = Ok 11 ∧
  ∃ out,
    replace_span (lit "ABCstartXYZendDEF") (lit "start") (lit "end") (lit "R") = Ok out ∧
    length out = 3 + length (lit "R") + (length (lit "ABCstartXYZendDEF") - 11).
Proof.
  split; [reflexivity|]. split; [reflexivity|].
  apply (replace_span_length (lit "ABCstartXYZendDEF") (lit "start") (lit "end") (lit "R") 3 11);
    reflexivity.
Defined.

(** In "endXstartYend" both markers are present and the end marker is
    found at 10, after the start marker's offset 4; the formula gives
    4 + 1 + (13 - 10) = 8 and the returned string has length 18. *)
Lemma replace_span_length_not_spec :
  index (lit "endXstartYend") (lit "start") = Ok 4 ∧
  index_from (lit "endXstartYend") (lit "end") 4 = Ok 10 ∧
  4 + length (lit "R") + (length (lit "endXstartYend") - 10) = 8 ∧
  ∃ out,
    replace_span (lit "endXstartYend") (lit "start") (lit "end") (lit "R") = Ok out ∧
    length out = 18.
Proof. repeat split. by eexists. Qed.

(** ** Several occurrences *)

(** C6: when the start marker occurs at more than one offset, the splice
    start is the lowest of them, and the result is written with that
    offset alone. *)
Theorem first_start_occurrence_is_used
    (document start_marker end_marker replacement : str) k1 k2 :
  occurs_at document start_marker k1 →
  occurs_at document start_marker k2 →
  k1 < k2 →
  ∃ i,
    index document start_marker = Ok i ∧
    first_occurrence document start_marker i ∧
    i ≤ k1 ∧ i < k2 ∧
    replace_span document start_marker end_marker replacement
    = (j ← index document end_marker;
       mret (take i document ++ replacement ++ drop j document)).
Proof.
  intros H1 H2 Hlt. destruct (find document start_marker) as [i|] eqn:Hf.
  - exists i. pose proof Hf as [Hocc Hmin]%find_Some.
    split; [by apply index_Ok|]. split; [done|].
    pose proof (Hmin _ H1). split; [done|]. split; [lia|].
    unfold replace_span, locate, index. rewrite Hf. simpl.
    by destruct (find document end_marker).
  - rewrite find_None in Hf. by apply Hf in H1.
Qed.

Lemma first_start_occurrence_is_used_witness :
  occurs_at (lit "aXbXcE") (lit "X") 1 ∧
  occurs_at (lit "aXbXcE") (lit "X") 3 ∧
  1 < 3 ∧
  ∃ i,
    index (lit "aXbXcE") (lit "X") = Ok i ∧
    first_occurrence (lit "aXbXcE") (lit "X") i ∧
    i ≤ 1 ∧ i < 3 ∧
    replace_span (lit "aXbXcE") (lit "X") (lit "E") (lit "R")
    = (j ← index (lit "aXbXcE") (lit "E");
       mret (take i (lit "aXbXcE") ++ lit "R" ++ drop j (lit "aXbXcE"))).
Proof.
  assert (occurs_at (lit "aXbXcE") (lit "X") 1) as H1 by (split; [simpl; lia | reflexivity]).
  assert (occurs_at (lit "aXbXcE") (lit "X") 3) as H3 by (split; [simpl; lia | reflexivity]).
  split; [exact H1|]. split; [exact H3|]. split; [lia|].
  apply (first_start_occurrence_is_used
           (lit "aXbXcE") (lit "X") (lit "E") (lit "R") 1 3 H1 H3). lia.
Defined.

(** ** An end marker inside the start marker *)

(** C7, as the code has it: when the first occurrence [j] of the end
    marker found from offset [i] lies before [i + len(start_marker)], the
    operation still succeeds; it returns
    [document[0:i] + replacement + document[j0:]] where [j0] is the first
    occurrence of the end marker in the whole document, and [j0] is [j]
    when the end marker does not occur before [i]. *)
Theorem overlapping_end_marker_accepted
    (document start_marker end_marker replacement : str) i j :
  index document start_marker = Ok i →
  index_from document end_marker i = Ok j →
  j < i + length start_marker →
  ∃ j0,
    index document end_marker = Ok j0 ∧ j0 ≤ j ∧
    replace_span document start_marker end_marker replacement
    = Ok (take i document ++ replacement ++ drop j0 document) ∧
    ((∀ k, k < i → ¬ occurs_at document end_marker k) → j0 = j).
Proof.
  intros Hi%index_Ok Hj%index_from_Ok _.
  destruct (find_from_find _ _ _ _ Hj) as (j0 & Hj0 & Hle). exists j0.
  split; [by apply index_Ok|]. split; [done|]. split; [by apply replace_span_Ok|].
  intros Hno. pose proof Hj0 as [Hocc0 _]%find_Some.
  destruct (decide (j0 < i)) as [Hlt|Hge]; [by apply Hno in Hocc0|].
  pose proof (find_from_agrees document end_marker i j0
                (find_le_length _ _ _ Hi) Hj0) as [_ Hfrom].
  rewrite Hfrom in Hj by lia. congruence.
Qed.

Lemma overlapping_end_marker_accepted_witness :
  index (lit "XstartY") (lit "start") = Ok 1 ∧
  index_from (lit "XstartY") (lit "t") 1 = Ok 2 ∧
  2 < 1 + length (lit "start") ∧
  ∃ j0,
    index (lit "XstartY") (lit "t") = Ok j0 ∧ j0 ≤ 2 ∧
    replace_span (lit "XstartY") (lit "start") (lit "t") (lit "R")
    = Ok (take 1 (lit "XstartY") ++ lit "R" ++ drop j0 (lit "XstartY")) ∧
    ((∀ k, k < 1 → ¬ occurs_at (lit "XstartY") (lit "t") k) → j0 = 2).
Proof.
  split; [reflexivity|]. split; [reflexivity|]. split; [simpl; lia|].
  apply (overlapping_end_marker_accepted
           (lit "XstartY") (lit "start") (lit "t") (lit "R") 1 2);
    [reflexivity | reflexivity | simpl; lia].
Defined.

(** In "tXstart" the start marker is first found at 2 and the end marker
    "t", scanned for from offset 2, at 3, inside the start marker; the
    operation succeeds and does not return
    [document[0:2] + "R" + document[3:]] = "tXRtart". *)
Lemma overlapping_end_marker_not_spec_splice :
  index (lit "tXstart") (lit "start") = Ok 2 ∧
  index_from (lit "tXstart") (lit "t") 2 = Ok 3 ∧
  3 < 2 + length (lit "start") ∧
  take 2 (lit "tXstart") ++ lit "R" ++ drop 3 (lit "tXstart") = lit "tXRtart" ∧
  replace_span (lit "tXstart") (lit "start") (lit "t") (lit "R") = Ok (lit "tXRtXstart") ∧
  replace_span (lit "tXstart") (lit "start") (lit "t") (lit "R")
    ≠ Ok (take 2 (lit "tXstart") ++ lit "R" ++ drop 3 (lit "tXstart")).
Proof.
  split; [reflexivity|]. split; [reflexivity|]. split; [simpl; lia|].
  split; [reflexivity|]. split; [reflexivity|]. vm_compute. discriminate.
Qed.

(** ** Running the operation again *)

(** C9: the operation is not idempotent. On "ABCstartXYZendDEF" the
    precondition holds and the first run returns "ABCRendDEF"; a second
    run on that output raises, the start marker being gone. *)
Theorem replace_span_not_idempotent :
  ∃ (document start_marker end_marker replacement out : str) i j,
    index document start_marker = Ok i ∧
    index_from document end_marker i = Ok j ∧
    i + length start_marker ≤ j ∧
    replace_span document start_marker end_marker replacement = Ok out ∧
    replace_span out start_marker end_marker replacement = Raise ValueError ∧
    replace_span out start_marker end_marker replacement ≠ Ok out.
Proof.
  exists (lit "ABCstartXYZendDEF"), (lit "start"), (lit "end"), (lit "R"),
    (lit "ABCRendDEF"), 3, 11.
  split; [reflexivity|]. split; [reflexivity|]. split; [simpl; lia|].
  split; [reflexivity|]. split; [reflexivity|]. discriminate.
Qed.

(** ** An end marker before the start marker *)

(** C10: the end marker is looked up from offset 0, so when its first
    occurrence [j] lies before the first occurrence [i] of the start
    marker the operation succeeds with
    [document[0:i] + replacement + document[j:]], and the segment
    [document[j:i]] stands both before the replacement and after it. *)
Theorem end_before_start_duplicates_segment
    (document start_marker end_marker replacement : str) i j :
  index document start_marker = Ok i →
  index document end_marker = Ok j →
  j < i →
  let segment := take (i - j) (drop j document) in
  replace_span document start_marker end_marker replacement
  = Ok (take i document ++ replacement ++ drop j document) ∧
  length segment = i - j ∧
  take i document = take j document ++ segment ∧
  drop j document = segment ++ drop i document ∧
  replace_span document start_marker end_marker replacement
  = Ok (take j document ++ segment ++ replacement ++ segment ++ drop i document).
Proof.
  intros Hi%index_Ok Hj%index_Ok Hlt segment.
  pose proof (find_le_length _ _ _ Hi) as Hlen.
  assert (take i document = take j document ++ segment) as Htake.
  { unfold segment. rewrite take_take_drop. f_equal. lia. }
  assert (drop j document = segment ++ drop i document) as Hdrop.
  { unfold segment. rewrite <- (take_drop (i - j) (drop j document)) at 1.
    rewrite drop_drop. do 2 f_equal. lia. }
  split; [by apply replace_span_Ok|]. split.
  { unfold segment. rewrite length_take, length_drop. lia. }
  split; [done|]. split; [done|].
  rewrite (replace_span_Ok _ _ _ _ _ _ Hi Hj). rewrite Htake at 1. rewrite Hdrop at 1.
  by rewrite <- !app_assoc.
Qed.

Lemma end_before_start_duplicates_segment_witness :
  index (lit "endXstartYend") (lit "start") = Ok 4 ∧
  index (lit "endXstartYend") (lit "end") = Ok 0 ∧
  0 < 4 ∧
  replace_span (lit "endXstartYend") (lit "start") (lit "end") (lit "R")
  = Ok (lit "endX" ++ lit "R" ++ lit "endX" ++ lit "startYend").
Proof.
  split; [reflexivity|]. split; [reflexivity|]. split; [lia|].
  pose proof (end_before_start_duplicates_segment
                (lit "endXstartYend") (lit "start") (lit "end") (lit "R") 4 0
                eq_refl eq_refl ltac:(lia)) as (_ & _ & _ & _ & Hout).
  exact Hout.
Defined.

(** ** The script's effects *)

Lemma transform_replace_span p s e b w :
  transform p s e b w =
  match files w !! p with
  | Some text => (replace_span text s e b, w)
  | None => (Raise FileNotFoundError, w)
  end.
Proof.
  unfold transform, read_text, mbind, io_bind. destruct (files w !! p) as [text|]; [|done].
  unfold replace_span, locate, lift, index.
  by destruct (find text s), (find text e).
Qed.

Lemma replace_in_file_transform p s e b w :
  replace_in_file p s e b w = (transform p s e b ≫= write_text p) w.
Proof.
  unfold replace_in_file, transform, read_text, mbind, io_bind.
  destruct (files w !! p) as [text|]; [|done].
  unfold lift, index. by destruct (find text s), (find text e).
Qed.

Lemma replace_in_file_replace_span p s e b w :
  replace_in_file p s e b w =
  match files w !! p with
  | Some text =>
      match replace_span text s e b with
      | Ok out => (Ok (), World (<[p:=out]> (files w)) (writes w ++ [(p, out)]))
      | Raise err => (Raise err, w)
      end
  | None => (Raise FileNotFoundError, w)
  end.
Proof.
  rewrite replace_in_file_transform. unfold mbind, io_bind.
  rewrite transform_replace_span. destruct (files w !! p) as [text|]; [|done].
  by destruct (replace_span text s e b).
Qed.

(** C4: when a marker lookup fails the run ends with the exception and the
    world it started in, nothing written; and a run either ends so,
    with an exception and an unchanged world, or has completed the whole
    transformation and performed the one write of its complete output. *)
Theorem write_only_after_success (p : string) (start_marker end_marker block : str) (w : world) :
  (∀ text,
     files w !! p = Some text →
     index text start_marker = Raise ValueError ∨ index text end_marker = Raise ValueError →
     replace_in_file p start_marker end_marker block w = (Raise ValueError, w)) ∧
  (∀ res w',
     replace_in_file p start_marker end_marker block w = (res, w') →
     (∃ err, res = Raise err ∧ w' = w) ∨
     (∃ text out,
        files w !! p = Some text ∧
        replace_span text start_marker end_marker block = Ok out ∧
        res = Ok () ∧
        files w' = <[p:=out]> (files w) ∧
        writes w' = writes w ++ [(p, out)])).
Proof.
  split.
  - intros text Hp Hfail. rewrite replace_in_file_replace_span, Hp.
    assert (replace_span text start_marker end_marker block = Raise ValueError) as ->; [|done].
    apply replace_span_Raise. split; [|done].
    destruct Hfail as [[? _]%index_Raise|[? _]%index_Raise]; eauto.
  - intros res w'. rewrite replace_in_file_replace_span.
    destruct (files w !! p) as [text|]; [|intros [= <- <-]; eauto].
    destruct (replace_span text start_marker end_marker block) as [out|err] eqn:Hr;
      intros [= <- <-]; [right | left]; eauto 10.
Qed.

(** The script itself, with its own path and literals. *)
Corollary script_write_only_after_success (w : world) res w' :
  script w = (res, w') →
  (∃ err, res = Raise err ∧ w' = w) ∨
  (res = Ok () ∧ ∃ out, writes w' = writes w ++ [(path, out)]).
Proof.
  unfold script. rewrite replace_in_file_replace_span.
  destruct (files w !! path) as [text|]; [|intros [= <- <-]; eauto].
  destruct (replace_span text _ _ block) as [out|err]; intros [= <- <-]; [right | left]; eauto.
Qed.

(** C8: the transformation is a function of the document, the markers and
    the replacement alone. Two runs that read the same document, in
    whatever worlds, end alike, with the value or the exception of
    [replace_span]; and the steps up to the splice leave the world, the
    stored document with it, as they found it. *)
Theorem transformation_deterministic_pure
    (p : string) (start_marker end_marker block text : str) (w1 w2 : world) :
  files w1 !! p = Some text →
  files w2 !! p = Some text →
  transform p start_marker end_marker block w1
    = (replace_span text start_marker end_marker block, w1) ∧
  transform p start_marker end_marker block w2
    = (replace_span text start_marker end_marker block, w2) ∧
  (replace_in_file p start_marker end_marker block w1).1
    = (replace_in_file p start_marker end_marker block w2).1 ∧
  files (replace_in_file p start_marker end_marker block w1).2 !! p
    = files (replace_in_file p start_marker end_marker block w2).2 !! p.
Proof.
  intros H1 H2. rewrite !transform_replace_span, !replace_in_file_replace_span, H1, H2.
  split; [done|]. split; [done|].
  destruct (replace_span text start_marker end_marker block) as [out|err]; simpl.
  - split; [done|]. by rewrite !lookup_insert_eq.
  - split; [done|]. by rewrite H1, H2.
Qed.

Lemma transformation_deterministic_pure_witness :
  let w1 := World {[ "a.txt" := lit "ABCstartXYZendDEF" ]} [] in
  let w2 := World {[ "a.txt" := lit "ABCstartXYZendDEF"; "b.txt" := lit "other" ]}
                  [("b.txt", lit "other")] in
  files w1 !! "a.txt" = Some (lit "ABCstartXYZendDEF") ∧
  files w2 !! "a.txt" = Some (lit "ABCstartXYZendDEF") ∧
  transform "a.txt" (lit "start") (lit "end") (lit "R") w1 = (Ok (lit "ABCRendDEF"), w1) ∧
  transform "a.txt" (lit "start") (lit "end") (lit "R") w2 = (Ok (lit "ABCRendDEF"), w2) ∧
  (replace_in_file "a.txt" (lit "start") (lit "end") (lit "R") w1).1
    = (replace_in_file "a.txt" (lit "start") (lit "end") (lit "R") w2).1.
Proof.
  intros w1 w2.
  assert (files w1 !! "a.txt" = Some (lit "ABCstartXYZendDEF")) as H1 by (vm_compute; reflexivity).
  assert (files w2 !! "a.txt" = Some (lit "ABCstartXYZendDEF")) as H2 by (vm_compute; reflexivity).
  split; [exact H1|]. split; [exact H2|].
  pose proof (transformation_deterministic_pure
                "a.txt" (lit "start") (lit "end") (lit "R") (lit "ABCstartXYZendDEF")
                w1 w2 H1 H2) as (Ht1 & Ht2 & Hres & _).
  split; [exact Ht1|]. split; [exact Ht2|]. exact Hres.
Defined.

(** ** Occurrences and slices *)

Section pystr_slices.
Context {A : Type} `{!EqDecision A}.
Implicit Types text sub pre mid post : list A.

(** An occurrence lies wholly inside the text. *)
Lemma occurs_at_bound text sub k : occurs_at text sub k → k + length sub ≤ length text.
Proof.
  intros [Hk Hsub]. apply (f_equal length) in Hsub.
  rewrite length_take, length_drop in Hsub. lia.
Qed.

(** Only the characters under an occurrence matter to it. *)
Lemma occurs_at_take text text' sub k n :
  take n text = take n text' → k + length sub ≤ n →
  occurs_at text sub k → occurs_at text' sub k.
Proof.
  intros Hn Hk Hocc. pose proof (occurs_at_bound _ _ _ Hocc) as Hb.
  destruct Hocc as [_ Hsub].
  assert (take (length sub) (drop k text') = sub) as Hsub'.
  { rewrite <- Hsub at 2.
    replace (length sub) with (Nat.min (length sub) (n - k)) by lia.
    rewrite <- !take_take.
    replace (take (n - k) (drop k text')) with (drop k (take n text'))
      by (rewrite take_drop_commute; do 2 f_equal; lia).
    replace (take (n - k) (drop k text)) with (drop k (take n text))
      by (rewrite take_drop_commute; do 2 f_equal; lia).
    by rewrite Hn. }
  split; [|done]. apply (f_equal length) in Hsub'.
  rewrite length_take, length_drop in Hsub'.
  destruct (decide (k ≤ length text')); [done|].
  apply (f_equal length) in Hn. rewrite !length_take in Hn. lia.
Qed.

(** An occurrence in a suffix is an occurrence in the whole. *)
Lemma occurs_at_app_r pre post sub k :
  occurs_at post sub k → occurs_at (pre ++ post) sub (length pre + k).
Proof.
  intros [Hk Hsub]. split; [rewrite length_app; lia|]. by rewrite drop_app_add.
Qed.

Lemma occurs_at_app_r_inv pre post sub k :
  length pre ≤ k → occurs_at (pre ++ post) sub k → occurs_at post sub (k - length pre).
Proof.
  intros Hle [Hk Hsub]. rewrite length_app in Hk. split; [lia|].
  by rewrite drop_app_ge in Hsub.
Qed.

(** A text that starts with [sub] has it at offset 0. *)
Lemma occurs_at_prefix sub post : occurs_at (sub ++ post) sub 0.
Proof. split; [lia|]. by rewrite drop_0, take_app_length. Qed.

(** Where an occurrence in [pre ++ mid ++ post] can lie, when [sub] is
    no longer than [mid], no proper suffix of [sub] starts [mid] and
    [sub] does not begin inside [mid]: wholly inside [pre], or wholly
    inside [post]. *)
Lemma occurs_at_app3_inv pre mid post sub k :
  length sub ≤ length mid →
  (∀ m, 0 < m < length sub → take (length sub - m) mid ≠ drop m sub) →
  (∀ n, n < length mid → take (length sub) (drop n mid) ≠ take (length mid - n) sub) →
  occurs_at (pre ++ mid ++ post) sub k →
  (k + length sub ≤ length pre ∧ occurs_at pre sub k) ∨
  (length pre + length mid ≤ k ∧ occurs_at post sub (k - length pre - length mid)).
Proof.
  intros Hlen Hsuffix Hinside Hocc.
  destruct (decide (k + length sub ≤ length pre)) as [Hin|Hout].
  { left. split; [done|]. apply (occurs_at_take (pre ++ mid ++ post) pre sub k (length pre));
      [|done..]. by rewrite take_app_length, take_ge. }
  destruct (decide (length pre + length mid ≤ k)) as [Hpost|Hmid].
  { right. split; [done|]. rewrite app_assoc in Hocc.
    apply occurs_at_app_r_inv in Hocc; rewrite length_app in *; [|lia].
    by replace (k - length pre - length mid) with (k - (length pre + length mid)) by lia. }
  exfalso. destruct Hocc as [_ Hsub].
  destruct (decide (k < length pre)) as [Hk|Hk].
  - (* the occurrence starts in [pre] and runs into [mid] *)
    apply (Hsuffix (length pre - k)); [lia|].
    rewrite drop_app_le in Hsub by lia.
    set (rest := drop k pre ++ mid ++ post) in *.
    transitivity (drop (length pre - k) (take (length sub) rest)); [|by rewrite Hsub].
    assert (drop (length pre - k) (take (length sub) rest)
            = take (length sub - (length pre - k)) (drop (length pre - k) rest)) as ->
      by (rewrite take_drop_commute; do 2 f_equal; lia).
    unfold rest. rewrite drop_app_length' by (rewrite length_drop; lia).
    by rewrite take_app_le by lia.
  - (* the occurrence starts in [mid] *)
    apply (Hinside (k - length pre)); [lia|].
    rewrite drop_app_ge, drop_app_le in Hsub by lia.
    set (n := k - length pre) in *.
    transitivity (take (length mid - n) (take (length sub) (drop n mid ++ post)));
      [|by rewrite Hsub].
    rewrite <- (take_app_length' (drop n mid) post (length mid - n)) at 1
      by (rewrite length_drop; lia).
    rewrite !take_take. f_equal. lia.
Qed.

(** The block stands at the splice start. *)
Lemma occurs_at_splice_block text mid i j :
  i ≤ length text → occurs_at (take i text ++ mid ++ drop j text) mid i.
Proof.
  intros Hi. replace i with (length (take i text) + 0) at 2 by (rewrite length_take; lia).
  apply occurs_at_app_r, occurs_at_prefix.
Qed.

(** What occurs at or after the splice end is still there, moved with
    the rest of the text. *)
Lemma occurs_at_splice_post text mid sub i j k :
  i ≤ length text → j ≤ k → occurs_at text sub k →
  occurs_at (take i text ++ mid ++ drop j text) sub (i + length mid + (k - j)).
Proof.
  intros Hi Hjk Hocc. pose proof (occurs_at_bound _ _ _ Hocc) as Hb.
  rewrite app_assoc.
  replace (i + length mid) with (length (take i text ++ mid))
    by (rewrite length_app, length_take; lia).
  apply occurs_at_app_r, occurs_at_drop; [lia|].
  by replace (j + (k - j)) with k by lia.
Qed.

(** A block that does not start with [sub] changes the text when it is
    spliced in where [sub] stood. *)
Lemma splice_changes_text text mid sub i j :
  occurs_at text sub i → length sub ≤ length mid → take (length sub) mid ≠ sub →
  take i text ++ mid ++ drop j text ≠ text.
Proof.
  intros [Hi Hsub] Hlen Hmid Heq. apply Hmid. rewrite <- Heq in Hsub.
  rewrite drop_app_length' in Hsub by (rewrite length_take; lia).
  by rewrite take_app_le in Hsub.
Qed.
End pystr_slices.

(** ** Edge cases of the run *)



(** X2: whatever the outcome, a run leaves every other file as it was, keeps
    the set of existing files, and logs at most one write, to its own
    path, of the text that the file then holds. *)
Theorem run_touches_only_its_path
    (p : string) (start_marker end_marker block : str) (w w' : world) res :
  replace_in_file p start_marker end_marker block w = (res, w') →
  (∀ q, q ≠ p → files w' !! q = files w !! q) ∧
  dom (files w') = dom (files w) ∧
  (writes w' = writes w ∨
   ∃ out, writes w' = writes w ++ [(p, out)] ∧ files w' !! p = Some out).
Proof.
  rewrite replace_in_file_replace_span.
  destruct (files w !! p) as [text|] eqn:Hp; [|intros [= <- <-]; eauto].
  destruct (replace_span text start_marker end_marker block) as [out|err];
    intros [= <- <-]; [|eauto]. simpl. split; [|split].
  - intros q Hq. by rewrite lookup_insert_ne.
  - rewrite dom_insert_L. apply (elem_of_dom_2 (D := gset string)) in Hp.
    by apply subseteq_union_1_L, singleton_subseteq_l.
  - right. exists out. by rewrite lookup_insert_eq.
Qed.

Lemma run_touches_only_its_path_witness :
  let w := World {[ "a.txt" := lit "ABCstartXYZendDEF"; "b.txt" := lit "other" ]} [] in
  ∃ w',
    replace_in_file "a.txt" (lit "start") (lit "end") (lit "R") w = (Ok (), w') ∧
    files w' !! "b.txt" = files w !! "b.txt" ∧
    dom (files w') = dom (files w).
Proof.
  intros w.
  destruct (replace_in_file "a.txt" (lit "start") (lit "end") (lit "R") w) as [res w'] eqn:Hrun.
  assert (res = Ok ()) as -> by (apply (f_equal fst) in Hrun; vm_compute in Hrun; congruence).
  exists w'. split; [reflexivity|].
  destruct (run_touches_only_its_path "a.txt" (lit "start") (lit "end") (lit "R") w w' (Ok ()) Hrun)
    as (Hframe & Hdom & _).
  split; [by apply Hframe | exact Hdom].
Defined.

(** ** Edge cases of the lookups and the splice *)

(** X3: both offsets that the lookups return leave room for their marker:
    the marker stands at the offset and ends inside the text, so neither
    slice of line 8 is ever cut short by the end of the text. *)
Theorem located_offsets_in_range (text start_marker end_marker : str) i j :
  locate text start_marker end_marker = Ok (i, j) →
  i + length start_marker ≤ length text ∧
  j + length end_marker ≤ length text ∧
  take (length start_marker) (drop i text) = start_marker ∧
  take (length end_marker) (drop j text) = end_marker ∧
  length (take i text) = i ∧
  length (drop j text) = length text - j.
Proof.
  intros [[Hi _]%find_Some [Hj _]%find_Some]%locate_Ok.
  pose proof (occurs_at_bound _ _ _ Hi). pose proof (occurs_at_bound _ _ _ Hj).
  destruct Hi as [_ Hi], Hj as [_ Hj].
  rewrite length_take, length_drop. repeat split; try done; lia.
Qed.

Lemma located_offsets_in_range_witness :
  locate (lit "ABCstartXYZendDEF") (lit "start") (lit "end") = Ok (3, 11) ∧
  3 + length (lit "start") ≤ length (lit "ABCstartXYZendDEF") ∧
  11 + length (lit "end") ≤ length (lit "ABCstartXYZendDEF").
Proof.
  split; [reflexivity|].
  destruct (located_offsets_in_range
              (lit "ABCstartXYZendDEF") (lit "start") (lit "end") 3 11 eq_refl)
    as (Hi & Hj & _).
  split; [exact Hi | exact Hj].
Defined.

(** X4: a text shorter than one of the markers, the empty text among them,
    makes the operation raise [ValueError]. *)
Theorem short_text_raises (text start_marker end_marker block : str) :
  length text < length start_marker ∨ length text < length end_marker →
  replace_span text start_marker end_marker block = Raise ValueError.
Proof.
  intros Hshort. apply replace_span_Raise. split; [|done].
  destruct Hshort as [Hs|He]; [left | right]; apply find_None;
    intros k Hk%occurs_at_bound; lia.
Qed.

Lemma short_text_raises_witness :
  (length (@nil N) < length (lit "start") ∨ length (@nil N) < length (lit "end")) ∧
  replace_span [] (lit "start") (lit "end") (lit "R") = Raise ValueError.
Proof.
  assert (length (@nil N) < length (lit "start") ∨ length (@nil N) < length (lit "end")) as H
    by (left; simpl; lia).
  split; [exact H|]. apply (short_text_raises [] (lit "start") (lit "end") (lit "R") H).
Defined.

(** X5: the result holds the block at the splice start and the end marker
    right after the block: the end marker is never removed. *)
Theorem result_keeps_block_and_end_marker (text start_marker end_marker block : str) i j :
  locate text start_marker end_marker = Ok (i, j) →
  ∃ out,
    replace_span text start_marker end_marker block = Ok out ∧
    occurs_at out block i ∧
    occurs_at out end_marker (i + length block).
Proof.
  intros [Hi Hj]%locate_Ok. eexists. split; [by apply replace_span_Ok|].
  pose proof (find_le_length _ _ _ Hi) as Hlen. split.
  - by apply occurs_at_splice_block.
  - apply find_Some in Hj as [Hj _].
    replace (i + length block) with (i + length block + (j - j)) by lia.
    by apply occurs_at_splice_post.
Qed.

Lemma result_keeps_block_and_end_marker_witness :
  locate (lit "ABCstartXYZendDEF") (lit "start") (lit "end") = Ok (3, 11) ∧
  ∃ out,
    replace_span (lit "ABCstartXYZendDEF") (lit "start") (lit "end") (lit "R") = Ok out ∧
    occurs_at out (lit "R") 3 ∧
    occurs_at out (lit "end") (3 + length (lit "R")).
Proof.
  split; [reflexivity|].
  apply (result_keeps_block_and_end_marker
           (lit "ABCstartXYZendDEF") (lit "start") (lit "end") (lit "R") 3 11).
  reflexivity.
Defined.

(** ** Running the script again *)

(** The block of line 7 does not start with the start marker of line 5,
    no proper suffix of that marker starts the block, and the marker
    does not begin inside the block. *)
Lemma block_not_start_marker :
  take (length (lit "const RoleRecommendations")) block ≠ lit "const RoleRecommendations".
Proof. vm_compute. discriminate. Qed.

Lemma block_not_marker_suffix m :
  0 < m < length (lit "const RoleRecommendations") →
  take (length (lit "const RoleRecommendations") - m) block
  ≠ drop m (lit "const RoleRecommendations").
Proof.
  change (length (lit "const RoleRecommendations")) with 25. intros [Hpos Hlt].
  do 25 (destruct m as [|m]; [first [lia | vm_compute; discriminate]|]). lia.
Qed.

Lemma marker_not_inside_block n :
  n < length block →
  take (length (lit "const RoleRecommendations")) (drop n block)
  ≠ take (length block - n) (lit "const RoleRecommendations").
Proof.
  change (length block) with 32. change (length (lit "const RoleRecommendations")) with 25.
  intros Hlt. do 32 (destruct n as [|n]; [vm_compute; discriminate|]). lia.
Qed.

(** X6: a successful run of the script always changes the file: the text
    written differs from the text read. *)
Theorem script_success_changes_file (w w' : world) :
  script w = (Ok (), w') →
  files w' !! path ≠ files w !! path ∧
  ∃ text out, files w !! path = Some text ∧ files w' !! path = Some out ∧ out ≠ text.
Proof.
  unfold script. rewrite replace_in_file_replace_span.
  destruct (files w !! path) as [text|] eqn:Hp; [|done].
  rewrite replace_span_locate.
  destruct (locate text _ _) as [[i j]|] eqn:Hloc; [|done]. intros [= <-].
  cbn [files]. rewrite lookup_insert_eq. apply locate_Ok in Hloc as [[Hi _]%find_Some _].
  assert (take i text ++ block ++ drop j text ≠ text) as Hne.
  { apply (splice_changes_text text block (lit "const RoleRecommendations") i j Hi);
      [vm_compute; lia | apply block_not_start_marker]. }
  split; [by intros [= Heq]|]. eauto.
Qed.

Lemma script_success_changes_file_witness :
  let w := World {[ path :=
    lit "a const RoleRecommendations b const RecommendationDetailDialog c" ]} [] in
  ∃ w', script w = (Ok (), w') ∧ files w' !! path ≠ files w !! path.
Proof.
  intros w. destruct (script w) as [res w'] eqn:Hrun.
  assert (res = Ok ()) as -> by (apply (f_equal fst) in Hrun; vm_compute in Hrun; congruence).
  exists w'. split; [reflexivity|].
  exact (proj1 (script_success_changes_file w w' Hrun)).
Defined.

(** X7: a second run of the script raises [ValueError] and leaves the file as
    the first run wrote it, when the start marker did not occur at or
    after the end marker's offset in the text first read. *)
Theorem script_rerun_raises (w : world) (text : str) i j :
  files w !! path = Some text →
  locate text (lit "const RoleRecommendations") (lit "const RecommendationDetailDialog")
    = Ok (i, j) →
  index_from text (lit "const RoleRecommendations") j = Raise ValueError →
  ∃ w1,
    script w = (Ok (), w1) ∧
    files w1 !! path = Some (take i text ++ block ++ drop j text) ∧
    script w1 = (Raise ValueError, w1).
Proof.
  intros Hp Hloc Hfrom. pose proof Hloc as [Hi Hj]%locate_Ok.
  set (out := take i text ++ block ++ drop j text).
  exists (World (<[path:=out]> (files w)) (writes w ++ [(path, out)])).
  unfold script. rewrite !replace_in_file_replace_span, Hp.
  rewrite (replace_span_Ok _ _ _ _ _ _ Hi Hj). split; [done|].
  cbn [files]. rewrite lookup_insert_eq. split; [done|].
  assert (replace_span out (lit "const RoleRecommendations")
            (lit "const RecommendationDetailDialog") block = Raise ValueError) as ->; [|done].
  apply replace_span_Raise. split; [|done]. left. apply find_None. intros k Hk.
  pose proof (find_le_length _ _ _ Hi) as Hilen. pose proof (find_le_length _ _ _ Hj) as Hjlen.
  apply occurs_at_app3_inv in Hk as [[Hin Hk]|[Hpost Hk]];
    [| |vm_compute; lia|apply block_not_marker_suffix|apply marker_not_inside_block].
  - (* before the block: an occurrence before the first one *)
    rewrite length_take in Hin.
    apply (occurs_at_take _ text _ _ i) in Hk; [|by rewrite take_idemp|lia].
    apply find_Some in Hi as [_ Hmin]. apply Hmin in Hk.
    change (length (lit "const RoleRecommendations")) with 25 in Hin. lia.
  - (* after the block: an occurrence at or after [j] *)
    apply occurs_at_drop in Hk; [|done].
    unfold index_from in Hfrom.
    destruct (find_from text (lit "const RoleRecommendations") j) eqn:Hf; [done|].
    rewrite find_from_None in Hf. apply Hf in Hk; [done | lia].
Qed.

Lemma script_rerun_raises_witness :
  let text := lit "a const RoleRecommendations b const RecommendationDetailDialog c" in
  let w := World {[ path := text ]} [] in
  files w !! path = Some text ∧
  locate text (lit "const RoleRecommendations") (lit "const RecommendationDetailDialog")
    = Ok (2, 30) ∧
  index_from text (lit "const RoleRecommendations") 30 = Raise ValueError ∧
  ∃ w1,
    script w = (Ok (), w1) ∧
    files w1 !! path = Some (take 2 text ++ block ++ drop 30 text) ∧
    script w1 = (Raise ValueError, w1).
Proof.
  intros text w.
  assert (files w !! path = Some text) as Hp by (vm_compute; reflexivity).
  split; [exact Hp|]. split; [reflexivity|]. split; [reflexivity|].
  apply (script_rerun_raises w text 2 30 Hp); reflexivity.
Defined.

(** X8: a second run succeeds and writes the file once more when the start
    marker occurred at or after the end marker's offset in the text
    first read. *)
Theorem rerun_succeeds_when_start_marker_follows
    (p : string) (start_marker end_marker block : str) (w : world) (text : str) i j k :
  files w !! p = Some text →
  locate text start_marker end_marker = Ok (i, j) →
  index_from text start_marker j = Ok k →
  ∃ out1 out2 w1 w2,
    replace_span text start_marker end_marker block = Ok out1 ∧
    replace_span out1 start_marker end_marker block = Ok out2 ∧
    replace_in_file p start_marker end_marker block w = (Ok (), w1) ∧
    replace_in_file p start_marker end_marker block w1 = (Ok (), w2) ∧
    writes w2 = writes w ++ [(p, out1); (p, out2)].
Proof.
  intros Hp Hloc Hk%index_from_Ok. pose proof Hloc as [Hi Hj]%locate_Ok.
  pose proof (find_le_length _ _ _ Hi) as Hilen.
  set (out1 := take i text ++ block ++ drop j text).
  assert (replace_span text start_marker end_marker block = Ok out1) as Hrun1
    by by apply replace_span_Ok.
  assert (∃ out2, replace_span out1 start_marker end_marker block = Ok out2) as [out2 Hrun2].
  { apply find_from_Some in Hk as (_ & Hjk & Hocc & _).
    pose proof (occurs_at_splice_post text block start_marker i j k Hilen Hjk Hocc) as Hs.
    apply find_Some in Hj as [Hj _].
    pose proof (occurs_at_splice_post text block end_marker i j j Hilen (le_n j) Hj) as He.
    fold out1 in Hs, He.
    destruct (replace_span out1 start_marker end_marker block) as [out2|err] eqn:Hr; [eauto|].
    apply replace_span_Raise in Hr as [[Hn|Hn] _]; rewrite find_None in Hn;
      [by apply Hn in Hs | by apply Hn in He]. }
  exists out1, out2. eexists _, _. split; [done|]. split; [done|].
  rewrite !replace_in_file_replace_span, Hp, Hrun1. split; [done|]. cbn [files].
  rewrite lookup_insert_eq, Hrun2. split; [done|]. cbn [writes]. by rewrite <- app_assoc.
Qed.

Lemma rerun_succeeds_when_start_marker_follows_witness :
  let text := lit "endXstartYend" in
  let w := World {[ "a.txt" := text ]} [] in
  files w !! "a.txt" = Some text ∧
  locate text (lit "start") (lit "end") = Ok (4, 0) ∧
  index_from text (lit "start") 0 = Ok 4 ∧
  ∃ out1 out2 w1 w2,
    replace_span text (lit "start") (lit "end") (lit "R") = Ok out1 ∧
    replace_span out1 (lit "start") (lit "end") (lit "R") = Ok out2 ∧
    replace_in_file "a.txt" (lit "start") (lit "end") (lit "R") w = (Ok (), w1) ∧
    replace_in_file "a.txt" (lit "start") (lit "end") (lit "R") w1 = (Ok (), w2) ∧
    writes w2 = writes w ++ [("a.txt", out1); ("a.txt", out2)].
Proof.
  intros text w.
  assert (files w !! "a.txt" = Some text) as Hp by (vm_compute; reflexivity).
  split; [exact Hp|]. split; [reflexivity|]. split; [reflexivity|].
  apply (rerun_succeeds_when_start_marker_follows
           "a.txt" (lit "start") (lit "end") (lit "R") w text 4 0 4 Hp); reflexivity.
Defined.

(** ** The lookup of line 6 and the lookup from the splice start *)

(** X9: when the end marker does not occur before the start marker's offset,
    looking it up over the whole text, as line 6 does, and looking it up
    from that offset on give the same outcome, value or exception. *)
Theorem end_lookup_agrees_when_no_earlier_end
    (text start_marker end_marker block : str) i :
  index text start_marker = Ok i →
  (∀ j, index text end_marker = Ok j → i ≤ j) →
  index text end_marker = index_from text end_marker i ∧
  replace_span text start_marker end_marker block
  = spec_replace_span text start_marker end_marker block.
Proof.
  intros Hi Hleast. pose proof Hi as Hilen%index_Ok%find_le_length.
  assert (index text end_marker = index_from text end_marker i) as Heq.
  { unfold index_from. destruct (find text end_marker) as [j|] eqn:Hj.
    - pose proof (Hleast j (proj2 (index_Ok _ _ _) Hj)) as Hij.
      rewrite (proj2 (find_from_agrees text end_marker i j Hilen Hj) Hij).
      by apply index_Ok.
    - assert (find_from text end_marker i = None) as ->.
      { apply find_from_None. intros k _. by apply find_None. }
      unfold index. by rewrite Hj. }
  split; [done|]. unfold replace_span, spec_replace_span, locate. rewrite Hi.
  cbn [mbind result_bind]. rewrite <- Heq. by destruct (index text end_marker).
Qed.

Lemma end_lookup_agrees_when_no_earlier_end_witness :
  index (lit "ABCstartXYZendDEF") (lit "start") = Ok 3 ∧
  replace_span (lit "ABCstartXYZendDEF") (lit "start") (lit "end") (lit "R")
  = spec_replace_span (lit "ABCstartXYZendDEF") (lit "start") (lit "end") (lit "R").
Proof.
  split; [reflexivity|].
  refine (proj2 (end_lookup_agrees_when_no_earlier_end
                   (lit "ABCstartXYZendDEF") (lit "start") (lit "end") (lit "R") 3 eq_refl _)).
  intros j Hj. vm_compute in Hj. injection Hj as <-. lia.
Defined.
